(** * bsonx: the expression AST and its three compilers

    A shallow embedding of [column.ts], [expr.ts], [compile.ts], [update.ts],
    [select.ts] and of the path accessor [defineSchema], one module each,
    followed by the properties of the match, update and projection compilers
    and of the path accessor.

    Modelling conventions.
    - A JavaScript object used as a key-value document is a finite map of its
      own string-keyed properties ([gmap string _]); two documents are
      structurally equal when they are equal as maps, whatever the order in
      which their keys were written. An object value ([VObj], [VArr]) is a
      plain one: data properties only, inheriting from [Object.prototype]
      (or [Array.prototype]).
    - An object literal with a computed key defines an own property for
      every key. A property write [o[k] = v] goes through the prototype
      chain: for the key ["__proto__"] it reaches the setter that
      [Object.prototype] carries, which replaces the prototype of [o] or
      does nothing, and creates no own property. The objects the compilers
      write to therefore carry their prototype ([object], [write]).
      [Object.prototype] and [Array.prototype] themselves are the standard
      ones.
    - Numbers are only stored and copied by the compilers, never computed
      with; a number literal is carried as an integer.
    - TypeScript types are erased at run time. The model follows the declared
      types, and widens them exactly where the source's own documentation
      speaks of input outside them: a node's [kind] is an arbitrary string,
      and a slot of a projection shape may hold no column or a column
      without path.
    - A call either returns a value or throws; the only exception the
      compilers can raise on the modelled inputs is the [TypeError] of a
      property read on [undefined]. *)

From stdpp Require Import gmap strings list fin_maps.
From Stdlib Require Import ZArith.

#[local] Set Warnings "-register-all".
#[local] Open Scope string_scope.

(** ** JavaScript values and completions *)

Inductive value : Type :=
  | VUndefined
  | VNull
  | VBool (b : bool)
  | VNum (n : Z)
  | VStr (s : string)
  | VArr (elems : list value)
  | VObj (props : gmap string value).

Inductive error : Type :=
  | TypeError.

(** The outcome of a call: normal completion with a value, or a throw. *)
Inductive completion (A : Type) : Type :=
  | Return (a : A)
  | Throw (e : error).

Arguments Return {A} a.
Arguments Throw {A} e.

#[global] Instance completion_ret : MRet completion := @Return.

#[global] Instance completion_bind : MBind completion :=
  fun A B (k : A → completion B) (c : completion A) =>
    match c with
    | Return a => k a
    | Throw e => Throw e
    end.

Section array_map.
Context {A B : Type} (f : A → completion B).

(** [Array.prototype.map] with a callback that may throw: the elements are
    visited from left to right and the first throw ends the call. *)
Fixpoint array_map (l : list A) : completion (list B) :=
  match l with
  | [] => Return []
  | x :: rest =>
      y ← f x; ys ← array_map rest; Return (y :: ys)
  end.
End array_map.

(** [`${x}`] for an [x] that is a string or [undefined]. *)
Definition template (x : option string) : string :=
  match x with
  | Some s => s
  | None => "undefined"
  end.

(** Truthiness of a string: only the empty string is falsy. *)
Definition truthy (s : string) : bool :=
  match s with
  | EmptyString => false
  | String _ _ => true
  end.

(** ** Objects that are written to

    What an object inherits from: an object literal [{}] starts with
    [Object.prototype]; the setter of [__proto__] can put [null] or an
    object value in its place. *)
Inductive prototype : Type :=
  | ObjectPrototype
  | NoPrototype
  | Inherits (o : value).

Record object : Type := {
  own : gmap string value;
  proto : prototype
}.

(** The object literal [{}]. *)
Definition fresh : object := {| own := ∅; proto := ObjectPrototype |}.

(** Whether a write of the key ["__proto__"], not found among the own
    properties, finds the accessor of [Object.prototype] up the chain: not
    when the chain is cut by [null], and not when an object on the way has
    an own data property of that name. *)
Definition reaches_setter (p : prototype) : bool :=
  match p with
  | ObjectPrototype => true
  | NoPrototype => false
  | Inherits (VObj props) => bool_decide (props !! "__proto__" = None)
  | Inherits _ => true
  end.

(** The setter of [Object.prototype.__proto__] called on [o] with [v]: an
    object or [null] becomes the prototype of [o], any other value is
    ignored. *)
Definition set_prototype (o : object) (v : value) : object :=
  match v with
  | VNull => {| own := own o; proto := NoPrototype |}
  | VObj _ | VArr _ => {| own := own o; proto := Inherits v |}
  | _ => o
  end.

(** The assignment [o[k] = v] on an extensible object whose own properties
    are writable data properties. An own property is overwritten. A data
    property found up the chain, or nothing found, gives a new own
    property. Only ["__proto__"] can find an accessor instead. *)
Definition write (o : object) (k : string) (v : value) : object :=
  if (k =? "__proto__")
     && bool_decide (own o !! k = None)
     && reaches_setter (proto o)
  then set_prototype o v
  else {| own := <[ k := v ]> (own o); proto := proto o |}.

(** ** column.ts *)
Module column.

(** [Column<T>]: the phantom [__type] has no run-time content. *)
Record Column : Type := { path : string }.

Definition column (path : string) : Column := {| path := path |}.

End column.

(** ** expr.ts *)
Module expr.

(** The two object shapes of the union [Expr]: [{ kind, col, val }] for the
    six comparisons and [{ kind, exprs }] for the two compounds. At run
    time [kind] is a string like any other. *)
Inductive Expr : Type :=
  | Leaf (kind : string) (col : column.Column) (val : value)
  | Tree (kind : string) (exprs : list Expr).

Definition eq (col : column.Column) (val : value) : Expr := Leaf "eq" col val.
Definition gt (col : column.Column) (val : value) : Expr := Leaf "gt" col val.
Definition gte (col : column.Column) (val : value) : Expr := Leaf "gte" col val.
Definition lt (col : column.Column) (val : value) : Expr := Leaf "lt" col val.
Definition lte (col : column.Column) (val : value) : Expr := Leaf "lte" col val.
Definition inArray (col : column.Column) (val : list value) : Expr :=
  Leaf "in" col (VArr val).
(** The rest parameter [...exprs] is the list of the arguments. *)
Definition and (exprs : list Expr) : Expr := Tree "and" exprs.
Definition or (exprs : list Expr) : Expr := Tree "or" exprs.

End expr.

(** ** compile.ts *)
Module compile.
Import expr.

(** The [switch] on [expr.kind]. A case reads the properties of its own
    shape: on a node of the other shape [expr.col] or [expr.exprs] is
    [undefined] and the read of [.path] or [.map] throws. When no case
    matches, the function body ends and the call returns [undefined]. *)
Fixpoint compileMatch (expr : Expr) : completion value :=
  match expr with
  | Leaf kind col val =>
      if kind =? "eq" then Return (VObj {[ column.path col := val ]})
      else if kind =? "gt" then
        Return (VObj {[ column.path col := VObj {[ "$gt" := val ]} ]})
      else if kind =? "gte" then
        Return (VObj {[ column.path col := VObj {[ "$gte" := val ]} ]})
      else if kind =? "lt" then
        Return (VObj {[ column.path col := VObj {[ "$lt" := val ]} ]})
      else if kind =? "lte" then
        Return (VObj {[ column.path col := VObj {[ "$lte" := val ]} ]})
      else if kind =? "in" then
        Return (VObj {[ column.path col := VObj {[ "$in" := val ]} ]})
      else if kind =? "and" then Throw TypeError
      else if kind =? "or" then Throw TypeError
      else Return VUndefined
  | Tree kind exprs =>
      if kind =? "eq" then Throw TypeError
      else if kind =? "gt" then Throw TypeError
      else if kind =? "gte" then Throw TypeError
      else if kind =? "lt" then Throw TypeError
      else if kind =? "lte" then Throw TypeError
      else if kind =? "in" then Throw TypeError
      else if kind =? "and" then
        docs ← array_map compileMatch exprs;
        Return (VObj {[ "$and" := VArr docs ]})
      else if kind =? "or" then
        docs ← array_map compileMatch exprs;
        Return (VObj {[ "$or" := VArr docs ]})
      else Return VUndefined
  end.

End compile.

(** ** update.ts *)
Module update.

(** An update descriptor [{ kind, col, val }]. *)
Record Update : Type := {
  kind : string;
  col : column.Column;
  val : value
}.

Definition set (col : column.Column) (val : value) : Update :=
  {| kind := "set"; col := col; val := val |}.

Definition inc (col : column.Column) (val : value) : Update :=
  {| kind := "inc"; col := col; val := val |}.

(** The local object [u]: it starts as [{}] and only ever receives the
    properties [$set] and [$inc], each a document keyed by column path
    ([{ $set?: Record<string, unknown>, $inc?: Record<string, unknown> }]
    in the words of the source). *)
Record UpdateDoc : Type := {
  dollar_set : option object;
  dollar_inc : option object
}.

Definition empty_doc : UpdateDoc :=
  {| dollar_set := None; dollar_inc := None |}.

(** [g ??= {}; g[path] = val] on an optional group [g]. *)
Definition assign (g : option object) (path : string) (val : value)
  : option object :=
  Some (write (default fresh g) path val).

(** One turn of the loop body: the two [if]s, one after the other. *)
Definition step (u : UpdateDoc) (upd : Update) : UpdateDoc :=
  let u1 :=
    if kind upd =? "set" then
      {| dollar_set := assign (dollar_set u) (column.path (col upd)) (val upd);
         dollar_inc := dollar_inc u |}
    else u in
  if kind upd =? "inc" then
    {| dollar_set := dollar_set u1;
       dollar_inc := assign (dollar_inc u1) (column.path (col upd)) (val upd) |}
  else u1.

Definition compileUpdate (updates : list Update) : UpdateDoc :=
  foldl step empty_doc updates.

(** The own properties of the returned object, as a JavaScript value: a
    key per group that was created, each group with its own properties. *)
Definition document (u : UpdateDoc) : value :=
  let with_set : gmap string value :=
    match dollar_set u with
    | Some g => {[ "$set" := VObj (own g) ]}
    | None => ∅
    end in
  VObj match dollar_inc u with
       | Some g => <[ "$inc" := VObj (own g) ]> with_set
       | None => with_set
       end.

End update.

(** ** select.ts *)
Module select.

(** A shape is given as the loop sees it: the string keys that
    [for (const k in shape)] enumerates, own or inherited, each with what
    [shape[k]] reads. What [shape[k]] can hold when the loop reads it: a
    column, an object that has no [path], or [undefined]/[null]. *)
Inductive slot : Type :=
  | Col (c : column.Column)
  | NoPath
  | Nullish.

(** [shape[k]?.path] *)
Definition optional_path (s : slot) : option string :=
  match s with
  | Col c => Some (column.path c)
  | NoPath => None
  | Nullish => None
  end.

(** The value written for one key: [`$${shape[k]?.path}`]. *)
Definition projected (s : slot) : value :=
  VStr ("$" +:+ template (optional_path s)).

(** The [for ... in] loop over an enumeration [entries] of the shape,
    starting from the object [projection]. *)
Definition select_loop (projection : object)
    (entries : list (string * slot)) : object :=
  foldl (fun projection '(k, s) => write projection k (projected s))
        projection entries.

(** The projection starts as [{}]; the result is given by its own
    properties (its prototype is still [Object.prototype], see
    [select_loop_prototype]). *)
Definition select (shape : gmap string slot) : gmap string value :=
  own (select_loop fresh (map_to_list shape)).

End select.

(** ** The path accessor: [defineSchema] *)
Module schema.

(** The proxy returned by [make(path)]: its only state is the [path]
    captured by the closure of its [get] trap. *)
Record accessor : Type := make { path : string }.

(** The [get] trap, for a string [key]. *)
Definition get (a : accessor) (key : string) : accessor :=
  let next := if truthy (path a) then path a +:+ "." +:+ key else key in
  make next.

(** [make()], the parameter taking its default [""]. *)
Definition defineSchema : accessor := make "".

(** [root.k1.k2. ... .kn] *)
Definition access (root : accessor) (keys : list string) : accessor :=
  foldl get root keys.

End schema.

(** ** The claims read as specifications

    Definitions that follow the specification's words, to be compared with
    the code above. *)

(** Last write wins: the value of the last node of [updates] whose kind is
    [k] and whose column path is [p], if there is one. *)
Fixpoint last_write (k p : string) (updates : list update.Update)
  : option value :=
  match updates with
  | [] => None
  | upd :: rest =>
      match last_write k p rest with
      | Some v => Some v
      | None =>
          if (update.kind upd =? k) && (column.path (update.col upd) =? p)
          then Some (update.val upd)
          else None
      end
  end.

(** The eight kinds the compilers know. *)
Definition expr_kinds : list string :=
  ["eq"; "gt"; "gte"; "lt"; "lte"; "in"; "and"; "or"].

Definition update_kinds : list string := ["set"; "inc"].

(** A node of the declared type [Expr]: the kind agrees with the shape, and
    so for every child. *)
Fixpoint well_typed (e : expr.Expr) : bool :=
  match e with
  | expr.Leaf kind _ _ =>
      bool_decide (kind ∈ ["eq"; "gt"; "gte"; "lt"; "lte"; "in"])
  | expr.Tree kind exprs =>
      bool_decide (kind ∈ ["and"; "or"]) && forallb well_typed exprs
  end.

(** The keys of a document; a value that is not an object has none. *)
Definition keys (v : value) : gset string :=
  match v with
  | VObj props => dom props
  | _ => ∅
  end.

(** A call fails fast when it throws. *)
Definition raises {A : Type} (c : completion A) : Prop :=
  ∃ e, c = Throw e.


(** The key under which a node of the declared type is compiled: the column
    path of a comparison, the operator ["$and"] or ["$or"] of a compound. *)
Definition top_key (e : expr.Expr) : string :=
  match e with
  | expr.Leaf _ col _ => column.path col
  | expr.Tree kind _ => "$" +:+ kind
  end.

(** The merge of two optional groups, the own properties of the [later]
    one over those of the [earlier] one, which stays the object written
    to. *)
Definition merge_group (later earlier : option object) : option object :=
  match later, earlier with
  | Some l, Some e => Some {| own := own l ∪ own e; proto := proto e |}
  | Some l, None => Some l
  | None, _ => earlier
  end.

(** An object as the literal [{}] made it, but for own properties under
    other names than ["__proto__"]: it inherits from [Object.prototype] and
    has no own property of that name. *)
Definition untouched (o : object) : Prop :=
  proto o = ObjectPrototype ∧ own o !! "__proto__" = None.

(** What a group holds under a path among its own properties; nothing when
    the group is absent. *)
Definition lookup_group (g : option object) (p : string) : option value :=
  g ≫= fun o => own o !! p.

(** The own keys of a group; none when the group is absent. *)
Definition own_keys (g : option object) : gset string :=
  match g with
  | Some o => dom (own o)
  | None => ∅
  end.

(** No node of the sequence writes the path ["__proto__"]. *)
Definition ordinary_paths (updates : list update.Update) : Prop :=
  Forall (fun upd => column.path (update.col upd) ≠ "__proto__") updates.

(** The column paths that the nodes of kind [k] of a sequence write. *)
Definition targets (k : string) (updates : list update.Update) : gset string :=
  list_to_set
    ((fun upd => column.path (update.col upd))
       <$> filter (fun upd => update.kind upd = k) updates).

(** * Properties *)

(** ** The match compiler *)

Section compileMatch_facts.
Import expr compile.

Lemma compileMatch_and (exprs : list Expr) :
  compileMatch (and exprs) =
    (docs ← array_map compileMatch exprs; Return (VObj {[ "$and" := VArr docs ]})).
Proof. reflexivity. Qed.

Lemma compileMatch_or (exprs : list Expr) :
  compileMatch (or exprs) =
    (docs ← array_map compileMatch exprs; Return (VObj {[ "$or" := VArr docs ]})).
Proof. reflexivity. Qed.

Lemma array_map_cons {A B : Type} (f : A → completion B) (x : A) (l : list A) :
  array_map f (x :: l) = (y ← f x; ys ← array_map f l; Return (y :: ys)).
Proof. reflexivity. Qed.

(** When every element compiles, [map] returns the results in order. *)
Lemma array_map_returns {A B : Type} (f : A → completion B)
    (l : list A) (rs : list B) :
  Forall2 (fun x r => f x = Return r) l rs → array_map f l = Return rs.
Proof.
  induction 1 as [|x r l rs Hx _ IH]; [reflexivity|].
  rewrite array_map_cons, Hx, IH. reflexivity.
Qed.

(** A node whose kind is none of the eight falls out of the [switch]. *)
Lemma compileMatch_unknown_Leaf (kind : string) (col : column.Column) (val : value) :
  kind ∉ expr_kinds → compileMatch (Leaf kind col val) = Return VUndefined.
Proof.
  intros Hk. unfold expr_kinds in Hk. cbn [compileMatch].
  repeat match goal with
    | |- context [String.eqb kind ?s] =>
        destruct (String.eqb_spec kind s) as [->|_]; [exfalso; apply Hk; set_solver|]
    end.
  reflexivity.
Qed.

Lemma compileMatch_unknown_Tree (kind : string) (exprs : list Expr) :
  kind ∉ expr_kinds → compileMatch (Tree kind exprs) = Return VUndefined.
Proof.
  intros Hk. unfold expr_kinds in Hk. cbn [compileMatch].
  repeat match goal with
    | |- context [String.eqb kind ?s] =>
        destruct (String.eqb_spec kind s) as [->|_]; [exfalso; apply Hk; set_solver|]
    end.
  reflexivity.
Qed.

End compileMatch_facts.

(** C1. For every column path [p] and value [v] (scalar or not, [null]
    included), [compileMatch] maps each comparison to its documented filter:
    [eq] to [{p: v}], each [k] of [gt], [gte], [lt], [lte] to
    [{p: {"$"+k: v}}], and [in] to [{p: {$in: vals}}] with [vals] as given,
    in the same order. *)
Theorem compileMatch_comparisons (p : string) (v : value) (vals : list value) :
  compile.compileMatch (expr.eq (column.column p) v) = Return (VObj {[ p := v ]})
  ∧ compile.compileMatch (expr.eq (column.column p) VNull)
    = Return (VObj {[ p := VNull ]})
  ∧ Forall (fun k =>
      compile.compileMatch (expr.Leaf k (column.column p) v)
      = Return (VObj {[ p := VObj {[ "$" +:+ k := v ]} ]}))
      ["gt"; "gte"; "lt"; "lte"]
  ∧ compile.compileMatch (expr.gt (column.column p) v)
    = Return (VObj {[ p := VObj {[ "$gt" := v ]} ]})
  ∧ compile.compileMatch (expr.gte (column.column p) v)
    = Return (VObj {[ p := VObj {[ "$gte" := v ]} ]})
  ∧ compile.compileMatch (expr.lt (column.column p) v)
    = Return (VObj {[ p := VObj {[ "$lt" := v ]} ]})
  ∧ compile.compileMatch (expr.lte (column.column p) v)
    = Return (VObj {[ p := VObj {[ "$lte" := v ]} ]})
  ∧ compile.compileMatch (expr.inArray (column.column p) vals)
    = Return (VObj {[ p := VObj {[ "$in" := VArr vals ]} ]}).
Proof.
  split_and!; try reflexivity.
  repeat constructor.
Qed.

(** C2. [compileMatch(and(e1,e2))] is [{$and: [compileMatch(e1),
    compileMatch(e2)]}], and likewise [or] with [$or]: the children are
    compiled in order, and a throw of a child is the throw of the whole.
    Nothing is flattened: [and(and(e1,e2),e3)] compiles to a [$and] array of
    two elements, the first of them the [$and] document of [e1] and [e2]. *)
Theorem compileMatch_compound (e1 e2 e3 : expr.Expr) (exprs : list expr.Expr) :
  compile.compileMatch (expr.and [e1; e2])
  = (d1 ← compile.compileMatch e1; d2 ← compile.compileMatch e2;
     Return (VObj {[ "$and" := VArr [d1; d2] ]}))
  ∧ compile.compileMatch (expr.or [e1; e2])
    = (d1 ← compile.compileMatch e1; d2 ← compile.compileMatch e2;
       Return (VObj {[ "$or" := VArr [d1; d2] ]}))
  ∧ compile.compileMatch (expr.and [expr.and [e1; e2]; e3])
    = (d1 ← compile.compileMatch e1; d2 ← compile.compileMatch e2;
       d3 ← compile.compileMatch e3;
       Return (VObj {[ "$and" := VArr [VObj {[ "$and" := VArr [d1; d2] ]}; d3] ]}))
  ∧ compile.compileMatch (expr.and exprs)
    = (docs ← array_map compile.compileMatch exprs;
       Return (VObj {[ "$and" := VArr docs ]}))
  ∧ compile.compileMatch (expr.or exprs)
    = (docs ← array_map compile.compileMatch exprs;
       Return (VObj {[ "$or" := VArr docs ]})).
Proof.
  split_and!.
  - rewrite compileMatch_and, !array_map_cons.
    destruct (compile.compileMatch e1), (compile.compileMatch e2); reflexivity.
  - rewrite compileMatch_or, !array_map_cons.
    destruct (compile.compileMatch e1), (compile.compileMatch e2); reflexivity.
  - rewrite compileMatch_and, array_map_cons, compileMatch_and, !array_map_cons.
    destruct (compile.compileMatch e1), (compile.compileMatch e2),
      (compile.compileMatch e3); reflexivity.
  - apply compileMatch_and.
  - apply compileMatch_or.
Qed.

(** C10. A compound node without children compiles structurally:
    [compileMatch(and())] is [{$and: []}] and [compileMatch(or())] is
    [{$or: []}], the operator key present and mapped to the empty array. *)
Theorem compileMatch_empty_compound :
  compile.compileMatch (expr.and []) = Return (VObj {[ "$and" := VArr [] ]})
  ∧ compile.compileMatch (expr.or []) = Return (VObj {[ "$or" := VArr [] ]})
  ∧ keys (VObj {[ "$and" := VArr [] ]}) = {[ "$and" ]}
  ∧ keys (VObj {[ "$or" := VArr [] ]}) = {[ "$or" ]}.
Proof.
  split_and!; try reflexivity; cbn [keys]; apply dom_singleton_L.
Qed.

(** Induction on expressions, with the children of a compound node under
    [Forall]. *)
Lemma Expr_nested_ind (P : expr.Expr → Prop) :
  (∀ kind col val, P (expr.Leaf kind col val)) →
  (∀ kind exprs, Forall P exprs → P (expr.Tree kind exprs)) →
  ∀ e, P e.
Proof.
  intros HLeaf HTree. fix IH 1. intros [kind col val|kind exprs].
  - apply HLeaf.
  - apply HTree. induction exprs as [|e exprs IHexprs]; constructor.
    + apply IH.
    + apply IHexprs.
Qed.

(** On a node of the declared type the compiler returns, and what it
    returns is a document. *)
Lemma compileMatch_well_typed (e : expr.Expr) :
  well_typed e = true → ∃ props, compile.compileMatch e = Return (VObj props).
Proof.
  induction e as [kind col val|kind exprs IH] using Expr_nested_ind;
    cbn [well_typed]; intros Hwt.
  - apply bool_decide_eq_true in Hwt.
    repeat (apply elem_of_cons in Hwt as [->|Hwt]; [eexists; reflexivity|]).
    by apply elem_of_nil in Hwt.
  - apply andb_true_iff in Hwt as [Hk Hall].
    assert (∃ docs, array_map compile.compileMatch exprs = Return docs)
      as [docs Hdocs].
    { clear Hk. induction IH as [|e exprs He _ IHexprs].
      - by eexists.
      - cbn [forallb] in Hall. apply andb_true_iff in Hall as [Hwe Hall].
        destruct (He Hwe) as [props Hprops].
        destruct (IHexprs Hall) as [docs Hdocs].
        eexists. by rewrite array_map_cons, Hprops, Hdocs. }
    apply bool_decide_eq_true in Hk.
    apply elem_of_cons in Hk as [->|Hk].
    { eexists. fold (expr.and exprs). by rewrite compileMatch_and, Hdocs. }
    apply elem_of_cons in Hk as [->|Hk].
    { eexists. fold (expr.or exprs). by rewrite compileMatch_or, Hdocs. }
    by apply elem_of_nil in Hk.
Qed.

(** ** The update compiler *)

Section compileUpdate_facts.
Import update.

Lemma compileUpdate_snoc (updates : list Update) (upd : Update) :
  compileUpdate (updates ++ [upd]) = step (compileUpdate updates) upd.
Proof. apply foldl_snoc. Qed.

(** A node that is neither a [set] nor an [inc] leaves [u] as it is. *)
Lemma step_unknown (u : UpdateDoc) (upd : Update) :
  kind upd ∉ update_kinds → step u upd = u.
Proof.
  intros Hk. unfold update_kinds in Hk. unfold step.
  destruct (String.eqb_spec (kind upd) "set") as [E|_];
    [exfalso; apply Hk; rewrite E; set_solver|].
  destruct (String.eqb_spec (kind upd) "inc") as [E|_];
    [exfalso; apply Hk; rewrite E; set_solver|].
  reflexivity.
Qed.

Lemma own_set_prototype (o : object) (v : value) :
  own (set_prototype o v) = own o.
Proof. by destruct v. Qed.

(** A write under an ordinary key is an insertion among the own
    properties; the prototype stays. *)
Lemma write_ordinary (o : object) (k : string) (v : value) :
  k ≠ "__proto__" →
  write o k v = {| own := <[ k := v ]> (own o); proto := proto o |}.
Proof.
  intros Hk. unfold write.
  by destruct (String.eqb_spec k "__proto__") as [->|_].
Qed.

(** Whatever the key written, the own property under an ordinary key [p]
    is the value written when the key is [p], and is untouched otherwise. *)
Lemma lookup_write (o : object) (k p : string) (v : value) :
  p ≠ "__proto__" →
  own (write o k v) !! p = if k =? p then Some v else own o !! p.
Proof.
  intros Hp. destruct (String.eqb_spec k p) as [->|Hne].
  - rewrite write_ordinary by done. apply lookup_insert_eq.
  - unfold write.
    destruct (_ && _); [by rewrite own_set_prototype|].
    cbn [own]. by rewrite lookup_insert_ne.
Qed.

Lemma lookup_assign (g : option object) (q p : string) (v : value) :
  p ≠ "__proto__" →
  lookup_group (assign g q v) p
  = if q =? p then Some v else lookup_group g p.
Proof.
  intros Hp. unfold assign, lookup_group. cbn [mbind option_bind].
  rewrite lookup_write by done.
  destruct (q =? p); [done|]. by destruct g.
Qed.

Lemma step_lookup_set (u : UpdateDoc) (upd : Update) (p : string) :
  p ≠ "__proto__" →
  lookup_group (dollar_set (step u upd)) p
  = if (kind upd =? "set") && (column.path (col upd) =? p)
    then Some (val upd) else lookup_group (dollar_set u) p.
Proof.
  intros Hp. unfold step.
  destruct (kind upd =? "set"), (kind upd =? "inc");
    cbn [dollar_set andb]; try reflexivity; by apply lookup_assign.
Qed.

Lemma step_lookup_inc (u : UpdateDoc) (upd : Update) (p : string) :
  p ≠ "__proto__" →
  lookup_group (dollar_inc (step u upd)) p
  = if (kind upd =? "inc") && (column.path (col upd) =? p)
    then Some (val upd) else lookup_group (dollar_inc u) p.
Proof.
  intros Hp. unfold step.
  destruct (kind upd =? "set"), (kind upd =? "inc");
    cbn [dollar_inc andb]; try reflexivity; by apply lookup_assign.
Qed.

Lemma last_write_snoc (k p : string) (updates : list Update) (upd : Update) :
  last_write k p (updates ++ [upd])
  = if (kind upd =? k) && (column.path (col upd) =? p)
    then Some (val upd) else last_write k p updates.
Proof.
  induction updates as [|u updates IH]; cbn [last_write app].
  - by destruct (_ && _).
  - rewrite IH. by destruct ((kind upd =? k) && _).
Qed.

Lemma step_is_Some_set (u : UpdateDoc) (upd : Update) :
  is_Some (dollar_set (step u upd))
  ↔ kind upd = "set" ∨ is_Some (dollar_set u).
Proof.
  unfold step.
  destruct (String.eqb_spec (kind upd) "set") as [E|E],
    (kind upd =? "inc"); cbn [dollar_set]; unfold assign;
    split; intros H; eauto; by destruct H.
Qed.

Lemma step_is_Some_inc (u : UpdateDoc) (upd : Update) :
  is_Some (dollar_inc (step u upd))
  ↔ kind upd = "inc" ∨ is_Some (dollar_inc u).
Proof.
  unfold step.
  destruct (kind upd =? "set"),
    (String.eqb_spec (kind upd) "inc") as [E|E]; cbn [dollar_inc];
    unfold assign; split; intros H; eauto; by destruct H.
Qed.

(** A group is there exactly when some node of its kind was seen. *)
Lemma compileUpdate_is_Some (updates : list Update) :
  (is_Some (dollar_set (compileUpdate updates))
   ↔ ∃ upd, upd ∈ updates ∧ kind upd = "set")
  ∧ (is_Some (dollar_inc (compileUpdate updates))
     ↔ ∃ upd, upd ∈ updates ∧ kind upd = "inc").
Proof.
  induction updates as [|upd updates [IHs IHi]] using rev_ind.
  - split; (split; [intros [? [=]]|intros (? & []%elem_of_nil & _)]).
  - rewrite compileUpdate_snoc, step_is_Some_set, step_is_Some_inc.
    split; split.
    + intros [E|(u & Hu & E)%IHs]; [exists upd|exists u];
        (split; [apply elem_of_app|done]);
        [right; by apply list_elem_of_singleton|by left].
    + intros (u & [Hu| ->%list_elem_of_singleton]%elem_of_app & E);
        [right; apply IHs; eauto|by left].
    + intros [E|(u & Hu & E)%IHi]; [exists upd|exists u];
        (split; [apply elem_of_app|done]);
        [right; by apply list_elem_of_singleton|by left].
    + intros (u & [Hu| ->%list_elem_of_singleton]%elem_of_app & E);
        [right; apply IHi; eauto|by left].
Qed.

(** The keys of the returned object are the groups that were created. *)
Lemma keys_document (u : UpdateDoc) :
  ("$set" ∈ keys (document u) ↔ is_Some (dollar_set u))
  ∧ ("$inc" ∈ keys (document u) ↔ is_Some (dollar_inc u)).
Proof.
  destruct u as [[s|] [i|]]; cbn [keys document dollar_set dollar_inc];
    rewrite ?dom_insert_L, ?dom_singleton_L, ?dom_empty_L;
    split; split; intros H; try (by eauto); try set_solver;
    exfalso; by apply is_Some_None in H.
Qed.

End compileUpdate_facts.

(** C3, as the specification states it, fails: a comparison node of the
    unknown kind ["ne"] makes [compileMatch] return [undefined] without any
    throw, inside an [and] it leaves [undefined] in the compiled array, and
    an update node of the unknown kind ["unset"] is dropped by
    [compileUpdate], which returns the empty document. *)
Lemma unknown_kind_is_not_rejected :
  ("ne" ∉ expr_kinds)
  ∧ compile.compileMatch (expr.Leaf "ne" (column.column "a") (VNum 1))
    = Return VUndefined
  ∧ ¬ raises (compile.compileMatch (expr.Leaf "ne" (column.column "a") (VNum 1)))
  ∧ compile.compileMatch
      (expr.and [expr.Leaf "ne" (column.column "a") (VNum 1)])
    = Return (VObj {[ "$and" := VArr [VUndefined] ]})
  ∧ ("unset" ∉ update_kinds)
  ∧ update.compileUpdate
      [ {| update.kind := "unset"; update.col := column.column "a";
           update.val := VNum 1 |} ]
    = update.empty_doc
  ∧ update.document update.empty_doc = VObj ∅.
Proof.
  split_and!; try reflexivity; try compute_done.
  intros [e He]. discriminate He.
Qed.

(** C3, amended. A node whose kind is none of the defined variants raises
    nothing: [compileMatch] returns [undefined] for it, whatever its shape,
    and [compileUpdate] skips it, returning the document compiled from the
    other nodes of the sequence. *)
Theorem unknown_kind_falls_through
    (kind : string) (col : column.Column) (val : value) (exprs : list expr.Expr)
    (upd : update.Update) (before after : list update.Update) :
  kind ∉ expr_kinds →
  update.kind upd ∉ update_kinds →
  compile.compileMatch (expr.Leaf kind col val) = Return VUndefined
  ∧ compile.compileMatch (expr.Tree kind exprs) = Return VUndefined
  ∧ update.compileUpdate (before ++ upd :: after)
    = update.compileUpdate (before ++ after).
Proof.
  intros Hkind Hupd. split_and!.
  - by apply compileMatch_unknown_Leaf.
  - by apply compileMatch_unknown_Tree.
  - unfold update.compileUpdate. rewrite !foldl_app. cbn [foldl].
    by rewrite step_unknown.
Qed.

Lemma unknown_kind_falls_through_witness :
  ("ne" ∉ expr_kinds)
  ∧ ("unset" ∉ update_kinds)
  ∧ compile.compileMatch (expr.Leaf "ne" (column.column "a") (VNum 1))
    = Return VUndefined
  ∧ compile.compileMatch (expr.Tree "ne" []) = Return VUndefined
  ∧ update.compileUpdate
      ([update.set (column.column "a") (VNum 1)]
       ++ {| update.kind := "unset"; update.col := column.column "b";
             update.val := VNull |}
       :: [update.inc (column.column "c") (VNum 2)])
    = update.compileUpdate
        ([update.set (column.column "a") (VNum 1)]
         ++ [update.inc (column.column "c") (VNum 2)]).
Proof.
  split; [compute_done|]. split; [compute_done|].
  apply (unknown_kind_falls_through "ne" (column.column "a") (VNum 1) []
           {| update.kind := "unset"; update.col := column.column "b";
              update.val := VNull |}
           [update.set (column.column "a") (VNum 1)]
           [update.inc (column.column "c") (VNum 2)]); compute_done.
Defined.

(** C4 fails on the column path ["__proto__"]: the write [$set[path] = val]
    finds the setter of [Object.prototype] and adds no entry. A [set] node
    on this path leaves the [$set] group without keys, where the last write
    on the path is [1]; [set] twice leaves it without keys too; a [set] and
    an [inc] on the path appear in neither group. On the path ["a"] the
    same sequences give the entries the claim describes. *)
Theorem compileUpdate_proto_path_lost :
  update.compileUpdate [update.set (column.column "__proto__") (VNum 1)]
  = {| update.dollar_set := Some fresh; update.dollar_inc := None |}
  ∧ update.document
      (update.compileUpdate [update.set (column.column "__proto__") (VNum 1)])
    = VObj {[ "$set" := VObj ∅ ]}
  ∧ last_write "set" "__proto__"
      [update.set (column.column "__proto__") (VNum 1)] = Some (VNum 1)
  ∧ update.compileUpdate [update.set (column.column "__proto__") (VNum 1);
                          update.set (column.column "__proto__") (VNum 2)]
    = {| update.dollar_set := Some fresh; update.dollar_inc := None |}
  ∧ update.compileUpdate [update.set (column.column "__proto__") (VNum 1);
                          update.inc (column.column "__proto__") (VNum 2)]
    = {| update.dollar_set := Some fresh; update.dollar_inc := Some fresh |}
  ∧ update.document
      (update.compileUpdate [update.set (column.column "a") (VNum 1);
                             update.set (column.column "a") (VNum 2)])
    = VObj {[ "$set" := VObj {[ "a" := VNum 2 ]} ]}.
Proof.
  split_and!; reflexivity.
Qed.

(** C5. For every sequence of update nodes the key [$set] (resp. [$inc]) is
    in the document [compileUpdate] returns exactly when the sequence has a
    node of kind [set] (resp. [inc]); the empty sequence compiles to the
    empty document [{}]. *)
Theorem compileUpdate_group_presence (updates : list update.Update) :
  ("$set" ∈ keys (update.document (update.compileUpdate updates))
   ↔ ∃ upd, upd ∈ updates ∧ update.kind upd = "set")
  ∧ ("$inc" ∈ keys (update.document (update.compileUpdate updates))
     ↔ ∃ upd, upd ∈ updates ∧ update.kind upd = "inc")
  ∧ update.compileUpdate [] = update.empty_doc
  ∧ update.document (update.compileUpdate []) = VObj ∅.
Proof.
  destruct (compileUpdate_is_Some updates) as [Hs Hi].
  destruct (keys_document (update.compileUpdate updates)) as [Ks Ki].
  split_and!; try reflexivity.
  - by rewrite Ks.
  - by rewrite Ki.
Qed.

(** ** The projection compiler *)

Section select_facts.
Import select.

(** The loop only writes strings, which the setter of [__proto__]
    ignores: an untouched projection stays untouched. *)
Lemma write_projected (o : object) (k : string) (s : slot) :
  untouched o →
  write o k (projected s)
  = if k =? "__proto__" then o
    else {| own := <[ k := projected s ]> (own o); proto := proto o |}.
Proof.
  intros [Hproto Hown]. unfold write.
  destruct (String.eqb_spec k "__proto__") as [->|_]; [|done].
  by rewrite Hproto, bool_decide_true.
Qed.

Lemma write_projected_untouched (o : object) (k : string) (s : slot) :
  untouched o → untouched (write o k (projected s)).
Proof.
  intros Ho. rewrite write_projected by done.
  destruct (String.eqb_spec k "__proto__") as [->|Hk]; [done|].
  destruct Ho as [Hproto Hown]. split; [done|].
  cbn [own]. by rewrite lookup_insert_ne.
Qed.

Lemma select_loop_snoc (o : object)
    (entries : list (string * slot)) (k : string) (s : slot) :
  select_loop o (entries ++ [(k, s)])
  = write (select_loop o entries) k (projected s).
Proof. unfold select_loop. by rewrite foldl_snoc. Qed.

Lemma select_loop_untouched (entries : list (string * slot)) :
  untouched (select_loop fresh entries).
Proof.
  induction entries as [|[k s] entries IH] using rev_ind; [done|].
  rewrite select_loop_snoc. by apply write_projected_untouched.
Qed.

Lemma select_loop_prototype (entries : list (string * slot)) :
  proto (select_loop fresh entries) = ObjectPrototype.
Proof. apply select_loop_untouched. Qed.

(** The loop builds the map of its entries, later entries over earlier
    ones, without the key ["__proto__"]. *)
Lemma select_loop_list_to_map (entries : list (string * slot)) :
  own (select_loop fresh entries)
  = delete "__proto__"
      (list_to_map (prod_map id projected <$> reverse entries)).
Proof.
  induction entries as [|[k s] entries IH] using rev_ind.
  - symmetry. apply delete_empty.
  - rewrite select_loop_snoc, reverse_snoc, fmap_cons.
    rewrite write_projected by apply select_loop_untouched.
    change (list_to_map (prod_map id projected (k, s) :: ?l))
      with (<[ k := projected s ]> (list_to_map l) : gmap string value).
    destruct (String.eqb_spec k "__proto__") as [->|Hk].
    + by rewrite delete_insert_eq.
    + cbn [own]. by rewrite IH, delete_insert_ne.
Qed.

(** Whatever the order in which [for ... in] enumerates the shape, the
    loop ends with the shape mapped key by key, the key ["__proto__"]
    left out. *)
Lemma select_loop_enumeration (shape : gmap string slot)
    (entries : list (string * slot)) :
  entries ≡ₚ map_to_list shape →
  own (select_loop fresh entries) = projected <$> delete "__proto__" shape.
Proof.
  intros Hperm. rewrite select_loop_list_to_map, list_to_map_fmap, fmap_delete.
  rewrite (list_to_map_proper (reverse entries) (map_to_list shape)).
  - by rewrite list_to_map_to_list.
  - rewrite reverse_Permutation, Hperm. apply NoDup_fst_map_to_list.
  - by rewrite reverse_Permutation.
Qed.

Lemma select_fmap (shape : gmap string slot) :
  select shape = projected <$> delete "__proto__" shape.
Proof. by apply select_loop_enumeration. Qed.

Lemma object_eq (o1 o2 : object) :
  own o1 = own o2 → proto o1 = proto o2 → o1 = o2.
Proof. destruct o1, o2; cbn; by intros -> ->. Qed.

End select_facts.

(** C6 fails on a shape that has the key ["__proto__"]: the write
    [projection[k] = ...] finds the setter of [Object.prototype], which
    ignores the string, and the key is missing from the projection. The
    shape [{"__proto__": col("a"), y: col("c")}] gives [{y: "$c"}]; without
    that key the shape of the specification gives what the claim says. *)
Theorem select_proto_key_lost :
  select.select
    {[ "__proto__" := select.Col (column.column "a");
       "y" := select.Col (column.column "c") ]}
  = {[ "y" := VStr "$c" ]}
  ∧ dom (select.select
           {[ "__proto__" := select.Col (column.column "a");
              "y" := select.Col (column.column "c") ]})
    ≠ dom ({[ "__proto__" := select.Col (column.column "a");
              "y" := select.Col (column.column "c") ]}
            : gmap string select.slot)
  ∧ select.select
      {[ "x" := select.Col (column.column "a.b");
         "y" := select.Col (column.column "c") ]}
    = {[ "x" := VStr "$a.b"; "y" := VStr "$c" ]}.
Proof.
  assert (select.select
            {[ "__proto__" := select.Col (column.column "a");
               "y" := select.Col (column.column "c") ]}
          = {[ "y" := VStr "$c" ]}) as Hsel.
  { rewrite select_fmap, delete_insert_eq, delete_singleton_ne by done.
    by rewrite map_fmap_singleton. }
  split_and!.
  - exact Hsel.
  - rewrite Hsel, dom_insert_L, !dom_singleton_L.
    intros Heq. assert ("__proto__" ∈ ({[ "y" ]} : gset string)) as Hin.
    { rewrite Heq. apply elem_of_union_l. by apply elem_of_singleton. }
    by apply elem_of_singleton in Hin.
  - rewrite select_fmap, delete_insert_ne, delete_singleton_ne by done.
    by rewrite fmap_insert, map_fmap_singleton.
Qed.

(** C7, as the specification states it, fails: on a shape whose key [x]
    holds no column reference, or a reference without path, [select]
    returns a document, and the document maps [x] to the placeholder
    ["$undefined"]. *)
Lemma select_emits_placeholder :
  select.select {[ "x" := select.Nullish ]} = {[ "x" := VStr "$undefined" ]}
  ∧ select.select {[ "x" := select.NoPath ]} = {[ "x" := VStr "$undefined" ]}
  ∧ select.select
      {[ "x" := select.Nullish; "y" := select.Col (column.column "c") ]}
    = {[ "x" := VStr "$undefined"; "y" := VStr "$c" ]}.
Proof.
  split_and!; rewrite select_fmap;
    rewrite ?delete_insert_ne, delete_singleton_ne by done;
    rewrite ?fmap_insert, map_fmap_singleton; reflexivity.
Qed.

(** C7, amended. On a shape in which the column reference of a key other
    than ["__proto__"] is missing ([undefined] or [null]) or has no path,
    [select] does not fail: it returns the document that maps this key to
    the string ["$undefined"] and every other key as it does without it. *)
Theorem select_missing_column (shape : gmap string select.slot) (k : string) :
  k ≠ "__proto__" →
  select.select (<[ k := select.Nullish ]> shape)
  = <[ k := VStr "$undefined" ]> (select.select shape)
  ∧ select.select (<[ k := select.NoPath ]> shape)
    = <[ k := VStr "$undefined" ]> (select.select shape).
Proof.
  intros Hk.
  split; by rewrite !select_fmap, delete_insert_ne, fmap_insert.
Qed.

Lemma select_missing_column_witness :
  "x" ≠ "__proto__"
  ∧ select.select
      (<[ "x" := select.Nullish ]>
         {[ "y" := select.Col (column.column "c") ]})
    = <[ "x" := VStr "$undefined" ]>
        (select.select {[ "y" := select.Col (column.column "c") ]})
  ∧ select.select
      (<[ "x" := select.NoPath ]>
         {[ "y" := select.Col (column.column "c") ]})
    = <[ "x" := VStr "$undefined" ]>
        (select.select {[ "y" := select.Col (column.column "c") ]}).
Proof.
  split; [discriminate|].
  apply (select_missing_column
           {[ "y" := select.Col (column.column "c") ]} "x").
  discriminate.
Defined.

(** ** The path accessor *)

Section accessor_facts.
Import schema.

Lemma append_assoc (s1 s2 s3 : string) :
  (s1 +:+ s2) +:+ s3 = s1 +:+ s2 +:+ s3.
Proof.
  induction s1 as [|a s1 IH]; [reflexivity|].
  change (String a ((s1 +:+ s2) +:+ s3) = String a (s1 +:+ s2 +:+ s3)).
  by rewrite IH.
Qed.

Lemma truthy_append (s1 s2 : string) :
  truthy s1 = true → truthy (s1 +:+ s2) = true.
Proof. by destruct s1. Qed.

Lemma access_cons (a : accessor) (key : string) (keys : list string) :
  access a (key :: keys) = access (get a key) keys.
Proof. reflexivity. Qed.

(** Below an accessor that already carries a path, accesses with non-empty
    names append the names, each after a dot. *)
Lemma access_truthy (a : accessor) (keys : list string) :
  truthy (path a) = true →
  Forall (fun key => truthy key = true) keys →
  path (access a keys) = String.concat "." (path a :: keys).
Proof.
  intros Ha Hkeys. revert a Ha.
  induction Hkeys as [|key keys Hkey _ IH]; intros a Ha; [reflexivity|].
  rewrite access_cons, IH.
  - unfold get. rewrite Ha. cbn [path String.concat].
    destruct keys; [reflexivity|]. by rewrite !append_assoc.
  - unfold get. rewrite Ha. by apply truthy_append.
Qed.

(** From the root, a sequence of non-empty names gives the names joined
    with dots. *)
Lemma access_defineSchema (keys : list string) :
  Forall (fun key => truthy key = true) keys →
  path (access defineSchema keys) = String.concat "." keys.
Proof.
  destruct 1 as [|key rest Hkey Hrest]; [reflexivity|].
  rewrite access_cons. by apply access_truthy.
Qed.

(** An empty name below the root leaves the path empty: the next name
    starts the path afresh, without a dot. *)
Example access_empty_name :
  path (access defineSchema [""; "a"]) = "a".
Proof. reflexivity. Qed.

(** The trap answers every name, [path] too: reading [.path] on an
    accessor gives one more accessor, and no string. *)
Remark get_path_is_an_accessor :
  get (access defineSchema ["address"; "city"]) "path"
  = make "address.city.path".
Proof. reflexivity. Qed.

End accessor_facts.

(** C8. Each access of a string field name [key] on an accessor derives the
    child path [priorPath ? priorPath + "." + key : key] from the path the
    accessor carries, and returns a new accessor carrying it; this holds at
    every step of a sequence of accesses. The accessor is a value that the
    [get] trap only reads, so the parent still carries its own path and
    gives the same children again: from one parent, two children are
    derived side by side. The path carried by [accessor.address.city] is
    the string ["address.city"]. *)
Theorem accessor_path (a : schema.accessor) (key : string) (keys : list string) :
  schema.path (schema.get a key)
  = (if truthy (schema.path a) then schema.path a +:+ "." +:+ key else key)
  ∧ schema.path (schema.access a (keys ++ [key]))
    = (let prior := schema.path (schema.access a keys) in
       if truthy prior then prior +:+ "." +:+ key else key)
  ∧ schema.path
      (schema.get (schema.get schema.defineSchema "address") "city")
    = "address.city"
  ∧ (let address := schema.get schema.defineSchema "address" in
     schema.path (schema.get address "city") = "address.city"
     ∧ schema.path (schema.get address "zip") = "address.zip"
     ∧ schema.path (schema.get address "city") = "address.city"
     ∧ schema.path address = "address").
Proof.
  split_and!; try reflexivity.
  - unfold schema.access. by rewrite foldl_snoc.
  - intros address. split_and!; reflexivity.
Qed.

(** ** The scenarios of the specification *)

Example scenario_age_range :
  compile.compileMatch
    (expr.and [expr.gte (column.column "age") (VNum 18);
               expr.lt (column.column "age") (VNum 65)])
  = Return (VObj {[ "$and" :=
      VArr [VObj {[ "age" := VObj {[ "$gte" := VNum 18 ]} ]};
            VObj {[ "age" := VObj {[ "$lt" := VNum 65 ]} ]}] ]}).
Proof. reflexivity. Qed.

Example scenario_status_or_score :
  compile.compileMatch
    (expr.or [expr.eq (column.column "status") (VStr "active");
              expr.gt (column.column "score") (VNum 75)])
  = Return (VObj {[ "$or" :=
      VArr [VObj {[ "status" := VStr "active" ]};
            VObj {[ "score" := VObj {[ "$gt" := VNum 75 ]} ]}] ]}).
Proof. reflexivity. Qed.

Example scenario_in_array :
  compile.compileMatch
    (expr.inArray (column.column "status") [VStr "open"; VStr "closed"])
  = Return (VObj {[ "status" :=
      VObj {[ "$in" := VArr [VStr "open"; VStr "closed"] ]} ]}).
Proof. reflexivity. Qed.

Example scenario_set_and_inc :
  update.document
    (update.compileUpdate [update.set (column.column "a") (VNum 1);
                           update.inc (column.column "b") (VNum 2)])
  = VObj {[ "$inc" := VObj {[ "b" := VNum 2 ]};
            "$set" := VObj {[ "a" := VNum 1 ]} ]}.
Proof. reflexivity. Qed.

Example scenario_set_twice :
  update.document
    (update.compileUpdate [update.set (column.column "a") (VNum 1);
                           update.set (column.column "a") (VNum 2)])
  = VObj {[ "$set" := VObj {[ "a" := VNum 2 ]} ]}.
Proof. reflexivity. Qed.

Example scenario_last_write :
  last_write "set" "a"
    [update.set (column.column "a") (VNum 1);
     update.inc (column.column "a") (VNum 5);
     update.set (column.column "a") (VNum 2);
     update.set (column.column "b") (VNum 3)]
  = Some (VNum 2).
Proof. reflexivity. Qed.

Example scenario_typed_expression :
  well_typed
    (expr.and [expr.gte (column.column "age") (VNum 18);
               expr.or [expr.eq (column.column "status") VNull]])
  = true.
Proof. reflexivity. Qed.

(** * Further properties of the compilers *)

(** ** [Array.prototype.map] and the compound nodes *)

Section array_map_facts.
Context {A B : Type} (f : A → completion B).

Lemma array_map_Return_inv (l : list A) (rs : list B) :
  array_map f l = Return rs → Forall2 (fun x r => f x = Return r) l rs.
Proof.
  revert rs. induction l as [|x l IH]; intros rs; rewrite ?array_map_cons.
  - intros [= <-]. constructor.
  - destruct (f x) as [y|err] eqn:Hx; [|discriminate].
    destruct (array_map f l) as [ys|err] eqn:Hl; [|discriminate].
    intros [= <-]. constructor; [done|by apply IH].
Qed.

Lemma array_map_Return_iff (l : list A) (rs : list B) :
  array_map f l = Return rs ↔ Forall2 (fun x r => f x = Return r) l rs.
Proof. split; [apply array_map_Return_inv|apply array_map_returns]. Qed.

Lemma array_map_raises (l : list A) :
  raises (array_map f l) ↔ Exists (fun x => raises (f x)) l.
Proof.
  induction l as [|x l IH]; rewrite ?array_map_cons.
  - split; [intros [err [=]]|intros H; inversion H].
  - rewrite Exists_cons, <- IH. unfold raises.
    destruct (f x) as [y|err]; [destruct (array_map f l) as [ys|err']|].
    + split; [intros [? [=]]|intros [[? [=]]|[? [=]]]].
    + split; [intros _; right; by eexists|intros _; by eexists].
    + split; [intros _; left; by eexists|intros _; by eexists].
Qed.

End array_map_facts.

Lemma bind_Return_inv {A B : Type} (c : completion A) (k : A → completion B)
    (b : B) :
  c ≫= k = Return b → ∃ a, c = Return a ∧ k a = Return b.
Proof. destruct c as [a|err]; [by exists a|discriminate]. Qed.

Lemma bind_raises {A B : Type} (c : completion A) (g : A → B) :
  raises (c ≫= fun a => Return (g a)) ↔ raises c.
Proof.
  unfold raises. destruct c as [a|err]; cbn.
  - split; intros [? [=]].
  - split; intros _; by eexists.
Qed.

(** X1. A compound node returns exactly when every child returns (a
    document, or [undefined] for a child of unknown kind), and then its
    array holds what the children returned, one entry per child, in the
    order of the children. *)
Theorem compileMatch_compound_returns (exprs : list expr.Expr) (d : value) :
  (compile.compileMatch (expr.and exprs) = Return d
   ↔ ∃ docs, Forall2 (fun e doc => compile.compileMatch e = Return doc) exprs docs
             ∧ d = VObj {[ "$and" := VArr docs ]})
  ∧ (compile.compileMatch (expr.or exprs) = Return d
     ↔ ∃ docs, Forall2 (fun e doc => compile.compileMatch e = Return doc) exprs docs
               ∧ d = VObj {[ "$or" := VArr docs ]}).
Proof.
  rewrite compileMatch_and, compileMatch_or. split; split.
  - intros (docs & Hdocs & [= <-])%bind_Return_inv.
    exists docs. by rewrite <- array_map_Return_iff.
  - intros (docs & Hdocs%array_map_Return_iff & ->). by rewrite Hdocs.
  - intros (docs & Hdocs & [= <-])%bind_Return_inv.
    exists docs. by rewrite <- array_map_Return_iff.
  - intros (docs & Hdocs%array_map_Return_iff & ->). by rewrite Hdocs.
Qed.

(** X2. A compound node throws exactly when one of its children throws. *)
Theorem compileMatch_compound_raises (exprs : list expr.Expr) :
  (raises (compile.compileMatch (expr.and exprs))
   ↔ Exists (fun e => raises (compile.compileMatch e)) exprs)
  ∧ (raises (compile.compileMatch (expr.or exprs))
     ↔ Exists (fun e => raises (compile.compileMatch e)) exprs).
Proof.
  rewrite compileMatch_and, compileMatch_or.
  split; by rewrite bind_raises, array_map_raises.
Qed.

(** ** What [compileMatch] returns *)


(** X4. On an expression of the declared type [compileMatch] returns a
    document with exactly one key: the column path for a comparison, the
    operator for a compound. *)
Theorem compileMatch_typed_single_key (e : expr.Expr) :
  well_typed e = true →
  ∃ v, compile.compileMatch e = Return (VObj {[ top_key e := v ]})
       ∧ keys (VObj {[ top_key e := v ]}) = {[ top_key e ]}.
Proof.
  intros Hwt.
  assert (∀ key v, keys (VObj {[ key := v ]}) = {[ key ]}) as Hkeys.
  { intros. cbn [keys]. apply dom_singleton_L. }
  destruct e as [kind col val|kind exprs]; cbn [well_typed top_key] in *.
  - apply bool_decide_eq_true in Hwt.
    repeat (apply elem_of_cons in Hwt as [->|Hwt];
            [eexists; split; [reflexivity|apply Hkeys]|]).
    by apply elem_of_nil in Hwt.
  - apply andb_true_iff in Hwt as [Hk Hall].
    assert (∃ docs, array_map compile.compileMatch exprs = Return docs)
      as [docs Hdocs].
    { clear Hk. induction exprs as [|e exprs IH]; [by eexists|].
      cbn [forallb] in Hall. apply andb_true_iff in Hall as [He Hall].
      destruct (compileMatch_well_typed e He) as [props Hprops].
      destruct (IH Hall) as [docs Hdocs].
      eexists. by rewrite array_map_cons, Hprops, Hdocs. }
    apply bool_decide_eq_true in Hk.
    apply elem_of_cons in Hk as [->|Hk].
    { eexists. fold (expr.and exprs). rewrite compileMatch_and, Hdocs.
      split; [reflexivity|apply Hkeys]. }
    apply elem_of_cons in Hk as [->|Hk].
    { eexists. fold (expr.or exprs). rewrite compileMatch_or, Hdocs.
      split; [reflexivity|apply Hkeys]. }
    by apply elem_of_nil in Hk.
Qed.

Lemma compileMatch_typed_single_key_witness :
  well_typed
    (expr.and [expr.gte (column.column "age") (VNum 18);
               expr.or [expr.eq (column.column "status") VNull]]) = true
  ∧ ∃ v,
      compile.compileMatch
        (expr.and [expr.gte (column.column "age") (VNum 18);
                   expr.or [expr.eq (column.column "status") VNull]])
      = Return (VObj {[ "$and" := v ]})
      ∧ keys (VObj {[ "$and" := v ]}) = {[ "$and" ]}.
Proof.
  split; [reflexivity|].
  apply (compileMatch_typed_single_key
           (expr.and [expr.gte (column.column "age") (VNum 18);
                      expr.or [expr.eq (column.column "status") VNull]])).
  reflexivity.
Defined.

(** X5. Paths and values go into the filter as they are, unescaped and
    unchecked. A comparison compiles to the same filter as the [eq] whose
    value is the operator document; an [in] node compiles whatever its value
    is, array or not; a compound compiles to the same filter as the [eq] on
    the column named ["$and"] (or ["$or"]) with the array of the compiled
    children. So different expressions can compile to one filter. *)
Theorem compileMatch_verbatim (p : string) (v : value) (exprs : list expr.Expr) :
  compile.compileMatch (expr.gt (column.column p) v)
  = compile.compileMatch (expr.eq (column.column p) (VObj {[ "$gt" := v ]}))
  ∧ compile.compileMatch (expr.gte (column.column p) v)
    = compile.compileMatch (expr.eq (column.column p) (VObj {[ "$gte" := v ]}))
  ∧ compile.compileMatch (expr.lt (column.column p) v)
    = compile.compileMatch (expr.eq (column.column p) (VObj {[ "$lt" := v ]}))
  ∧ compile.compileMatch (expr.lte (column.column p) v)
    = compile.compileMatch (expr.eq (column.column p) (VObj {[ "$lte" := v ]}))
  ∧ compile.compileMatch (expr.Leaf "in" (column.column p) v)
    = Return (VObj {[ p := VObj {[ "$in" := v ]} ]})
  ∧ compile.compileMatch (expr.and exprs)
    = (docs ← array_map compile.compileMatch exprs;
       compile.compileMatch (expr.eq (column.column "$and") (VArr docs)))
  ∧ compile.compileMatch (expr.or exprs)
    = (docs ← array_map compile.compileMatch exprs;
       compile.compileMatch (expr.eq (column.column "$or") (VArr docs))).
Proof.
  split_and!; reflexivity.
Qed.

(** ** How [compileUpdate] composes *)

(** Equations between sets of keys built with union, difference and
    singletons, element by element. *)
Ltac keys_eq :=
  apply set_eq; intros ?;
  rewrite ?elem_of_difference, ?elem_of_union, ?elem_of_singleton,
    ?elem_of_difference, ?elem_of_union, ?elem_of_singleton;
  rewrite ?elem_of_empty; intuition congruence.

(** The same, from an equation [H] between sets of keys. *)
Ltac keys_eq_from H :=
  let x := fresh "x" in
  apply set_eq; intros x;
  generalize (proj1 (set_eq _ _) H x);
  rewrite ?elem_of_difference, ?elem_of_union, ?elem_of_singleton,
    ?elem_of_difference, ?elem_of_union, ?elem_of_singleton;
  rewrite ?elem_of_empty; intuition congruence.

Section compileUpdate_composition.
Import update.

Lemma step_dollar_set (u : UpdateDoc) (upd : Update) :
  dollar_set (step u upd)
  = if kind upd =? "set"
    then assign (dollar_set u) (column.path (col upd)) (val upd)
    else dollar_set u.
Proof. unfold step. by destruct (kind upd =? "set"), (kind upd =? "inc"). Qed.

Lemma step_dollar_inc (u : UpdateDoc) (upd : Update) :
  dollar_inc (step u upd)
  = if kind upd =? "inc"
    then assign (dollar_inc u) (column.path (col upd)) (val upd)
    else dollar_inc u.
Proof. unfold step. by destruct (kind upd =? "set"), (kind upd =? "inc"). Qed.

Lemma UpdateDoc_eq (u1 u2 : UpdateDoc) :
  dollar_set u1 = dollar_set u2 → dollar_inc u1 = dollar_inc u2 → u1 = u2.
Proof. destruct u1, u2; cbn; by intros -> ->. Qed.

(** Writing an ordinary path into the merge of two groups is writing it
    into the later one. *)
Lemma assign_merge_group (later earlier : option object)
    (p : string) (v : value) :
  p ≠ "__proto__" →
  assign (merge_group later earlier) p v
  = merge_group (assign later p v) earlier.
Proof.
  intros Hp. unfold assign.
  destruct later as [l|], earlier as [e|]; cbn [merge_group default];
    rewrite ?write_ordinary by done; cbn [own proto fresh id]; try done.
  - by rewrite insert_union_l.
  - by rewrite <- insert_union_l, (left_id ∅ (∪)).
Qed.

Lemma merge_group_diag (g : option object) :
  merge_group g g = g.
Proof.
  destruct g as [[m p]|]; cbn; [|done]. by rewrite (idemp (∪)).
Qed.

Lemma ordinary_paths_snoc (updates : list Update) (upd : Update) :
  ordinary_paths (updates ++ [upd])
  ↔ ordinary_paths updates ∧ column.path (col upd) ≠ "__proto__".
Proof.
  unfold ordinary_paths. rewrite Forall_app, Forall_singleton. done.
Qed.

Lemma compileUpdate_app_set (before after : list Update) :
  ordinary_paths after →
  dollar_set (compileUpdate (before ++ after))
  = merge_group (dollar_set (compileUpdate after))
                (dollar_set (compileUpdate before)).
Proof.
  induction after as [|upd after IH] using rev_ind; intros Hafter.
  - by rewrite app_nil_r.
  - apply ordinary_paths_snoc in Hafter as [Hafter Hupd].
    rewrite app_assoc, !compileUpdate_snoc, !step_dollar_set, IH by done.
    destruct (kind upd =? "set"); [by apply assign_merge_group|done].
Qed.

Lemma compileUpdate_app_inc (before after : list Update) :
  ordinary_paths after →
  dollar_inc (compileUpdate (before ++ after))
  = merge_group (dollar_inc (compileUpdate after))
                (dollar_inc (compileUpdate before)).
Proof.
  induction after as [|upd after IH] using rev_ind; intros Hafter.
  - by rewrite app_nil_r.
  - apply ordinary_paths_snoc in Hafter as [Hafter Hupd].
    rewrite app_assoc, !compileUpdate_snoc, !step_dollar_inc, IH by done.
    destruct (kind upd =? "inc"); [by apply assign_merge_group|done].
Qed.

(** Two writes under different keys can be made in either order: at most
    one of them is a write of ["__proto__"], and it neither reads nor
    changes what the other one writes. *)
Lemma write_commute (o : object) (k1 k2 : string) (v1 v2 : value) :
  k1 ≠ k2 →
  write (write o k1 v1) k2 v2 = write (write o k2 v2) k1 v1.
Proof.
  intros Hne.
  destruct (decide (k1 = "__proto__")) as [->|Hk1];
    destruct (decide (k2 = "__proto__")) as [->|Hk2]; [done|..].
  - rewrite !(write_ordinary _ k2) by done.
    unfold write. cbn [own proto String.eqb Ascii.eqb Bool.eqb andb].
    rewrite lookup_insert_ne by done.
    destruct (bool_decide _ && _); [by destruct v1|].
    cbn [own proto]. by rewrite insert_insert_ne.
  - rewrite !(write_ordinary _ k1) by done.
    unfold write. cbn [own proto String.eqb Ascii.eqb Bool.eqb andb].
    rewrite lookup_insert_ne by done.
    destruct (bool_decide _ && _); [by destruct v2|].
    cbn [own proto]. by rewrite insert_insert_ne.
  - rewrite !write_ordinary by done. cbn [own proto].
    by rewrite insert_insert_ne.
Qed.

Lemma assign_commute (g : option object) (k1 k2 : string) (v1 v2 : value) :
  k1 ≠ k2 →
  assign (assign g k1 v1) k2 v2 = assign (assign g k2 v2) k1 v1.
Proof.
  intros Hne. unfold assign. cbn [default]. f_equal.
  by apply write_commute.
Qed.

(** Two nodes that differ in kind or in path can be taken in either
    order. *)
Lemma step_commute (u : UpdateDoc) (a b : Update) :
  kind a ≠ kind b ∨ column.path (col a) ≠ column.path (col b) →
  step (step u a) b = step (step u b) a.
Proof.
  intros Hab. apply UpdateDoc_eq.
  - rewrite !step_dollar_set.
    destruct (String.eqb_spec (kind a) "set") as [Ea|_],
      (String.eqb_spec (kind b) "set") as [Eb|_]; try done.
    apply assign_commute. destruct Hab as [Hk|Hp]; [congruence|done].
  - rewrite !step_dollar_inc.
    destruct (String.eqb_spec (kind a) "inc") as [Ea|_],
      (String.eqb_spec (kind b) "inc") as [Eb|_]; try done.
    apply assign_commute. destruct Hab as [Hk|Hp]; [congruence|done].
Qed.

Lemma targets_snoc (k : string) (updates : list Update) (upd : Update) :
  targets k (updates ++ [upd])
  = targets k updates
    ∪ (if decide (kind upd = k) then {[ column.path (col upd) ]} else ∅).
Proof.
  unfold targets. rewrite filter_app, fmap_app, list_to_set_app_L.
  f_equal. rewrite filter_cons, filter_nil.
  destruct (decide (kind upd = k)); cbn; [|done].
  by rewrite (right_id_L ∅ (∪)).
Qed.

(** Apart from ["__proto__"], a write adds its key to the own keys. *)
Lemma own_keys_assign (g : option object) (p : string) (v : value) :
  own_keys (assign g p v) ∖ {[ "__proto__" ]}
  = (own_keys g ∪ {[ p ]}) ∖ {[ "__proto__" ]}.
Proof.
  assert (own_keys (Some (default fresh g)) = own_keys g) as <-.
  { destruct g; [done|]. cbn. apply dom_empty_L. }
  unfold assign. cbn [own_keys]. unfold write.
  destruct (String.eqb_spec p "__proto__") as [->|Hp]; cbn [andb].
  - destruct (bool_decide _ && _).
    + rewrite own_set_prototype. keys_eq.
    + cbn [own]. rewrite dom_insert_L. keys_eq.
  - cbn [own]. rewrite dom_insert_L. keys_eq.
Qed.

End compileUpdate_composition.

(** X6. Compiling a concatenation whose second part writes no path
    ["__proto__"] merges the two compiled documents group by group: a group
    of the result is the group of [before] with the own properties of the
    group of [after] written over it. *)
Theorem compileUpdate_app (before after : list update.Update) :
  ordinary_paths after →
  update.compileUpdate (before ++ after)
  = {| update.dollar_set :=
         merge_group (update.dollar_set (update.compileUpdate after))
                     (update.dollar_set (update.compileUpdate before));
       update.dollar_inc :=
         merge_group (update.dollar_inc (update.compileUpdate after))
                     (update.dollar_inc (update.compileUpdate before)) |}.
Proof.
  intros Hafter.
  apply UpdateDoc_eq; cbn [update.dollar_set update.dollar_inc].
  - by apply compileUpdate_app_set.
  - by apply compileUpdate_app_inc.
Qed.

Lemma compileUpdate_app_witness :
  ordinary_paths [update.set (column.column "a") (VNum 2);
                  update.inc (column.column "n") (VNum 1)]
  ∧ update.compileUpdate
      ([update.set (column.column "__proto__") VNull;
        update.set (column.column "a") (VNum 1);
        update.set (column.column "b") (VNum 1)]
       ++ [update.set (column.column "a") (VNum 2);
           update.inc (column.column "n") (VNum 1)])
    = {| update.dollar_set :=
           Some {| own := {[ "a" := VNum 2; "b" := VNum 1 ]};
                   proto := NoPrototype |};
         update.dollar_inc :=
           Some {| own := {[ "n" := VNum 1 ]}; proto := ObjectPrototype |} |}.
Proof.
  split; [by repeat constructor|].
  etrans.
  - apply (compileUpdate_app
             [update.set (column.column "__proto__") VNull;
              update.set (column.column "a") (VNum 1);
              update.set (column.column "b") (VNum 1)]
             [update.set (column.column "a") (VNum 2);
              update.inc (column.column "n") (VNum 1)]).
    by repeat constructor.
  - vm_compute. reflexivity.
Defined.

(** X7. Repeating a sequence that writes no path ["__proto__"] changes
    nothing: the sequence followed by itself compiles to the document of
    the sequence. *)
Theorem compileUpdate_repeat (updates : list update.Update) :
  ordinary_paths updates →
  update.compileUpdate (updates ++ updates) = update.compileUpdate updates.
Proof.
  intros Hupdates. apply UpdateDoc_eq.
  - by rewrite compileUpdate_app_set, merge_group_diag.
  - by rewrite compileUpdate_app_inc, merge_group_diag.
Qed.

Lemma compileUpdate_repeat_witness :
  ordinary_paths [update.set (column.column "a") (VNum 1);
                  update.inc (column.column "n") (VNum 1);
                  update.set (column.column "a") (VNum 2)]
  ∧ update.compileUpdate
      ([update.set (column.column "a") (VNum 1);
        update.inc (column.column "n") (VNum 1);
        update.set (column.column "a") (VNum 2)]
       ++ [update.set (column.column "a") (VNum 1);
           update.inc (column.column "n") (VNum 1);
           update.set (column.column "a") (VNum 2)])
    = update.compileUpdate
        [update.set (column.column "a") (VNum 1);
         update.inc (column.column "n") (VNum 1);
         update.set (column.column "a") (VNum 2)].
Proof.
  split; [by repeat constructor|].
  apply (compileUpdate_repeat
           [update.set (column.column "a") (VNum 1);
            update.inc (column.column "n") (VNum 1);
            update.set (column.column "a") (VNum 2)]).
  by repeat constructor.
Defined.

(** X8. The order of the nodes matters only for collisions: two neighbours
    that differ in kind or in column path can be swapped without changing
    the compiled document. *)
Theorem compileUpdate_swap (before after : list update.Update)
    (a b : update.Update) :
  update.kind a ≠ update.kind b
  ∨ column.path (update.col a) ≠ column.path (update.col b) →
  update.compileUpdate (before ++ a :: b :: after)
  = update.compileUpdate (before ++ b :: a :: after).
Proof.
  intros Hab. unfold update.compileUpdate. rewrite !foldl_app. cbn [foldl].
  by rewrite (step_commute _ a b).
Qed.

Lemma compileUpdate_swap_witness :
  (update.kind (update.set (column.column "a") (VNum 1))
   ≠ update.kind (update.set (column.column "b") (VNum 2))
   ∨ column.path (update.col (update.set (column.column "a") (VNum 1)))
     ≠ column.path (update.col (update.set (column.column "b") (VNum 2))))
  ∧ update.compileUpdate
      ([update.inc (column.column "n") (VNum 1)]
       ++ update.set (column.column "a") (VNum 1)
       :: update.set (column.column "b") (VNum 2)
       :: [update.set (column.column "a") (VNum 3)])
    = update.compileUpdate
        ([update.inc (column.column "n") (VNum 1)]
         ++ update.set (column.column "b") (VNum 2)
         :: update.set (column.column "a") (VNum 1)
         :: [update.set (column.column "a") (VNum 3)]).
Proof.
  split; [right; discriminate|].
  apply (compileUpdate_swap
           [update.inc (column.column "n") (VNum 1)]
           [update.set (column.column "a") (VNum 3)]
           (update.set (column.column "a") (VNum 1))
           (update.set (column.column "b") (VNum 2))).
  right. discriminate.
Defined.

(** X9. Apart from ["__proto__"], a group holds exactly the paths its kind
    of node writes: the own keys under [$set] are the column paths of the
    [set] nodes of the sequence, the own keys under [$inc] those of the
    [inc] nodes. *)
Theorem compileUpdate_group_domains (updates : list update.Update) :
  own_keys (update.dollar_set (update.compileUpdate updates))
    ∖ {[ "__proto__" ]}
  = targets "set" updates ∖ {[ "__proto__" ]}
  ∧ own_keys (update.dollar_inc (update.compileUpdate updates))
      ∖ {[ "__proto__" ]}
    = targets "inc" updates ∖ {[ "__proto__" ]}.
Proof.
  split.
  - induction updates as [|upd updates IH] using rev_ind; [reflexivity|].
    rewrite compileUpdate_snoc, step_dollar_set, targets_snoc.
    destruct (String.eqb_spec (update.kind upd) "set") as [E|E].
    + rewrite own_keys_assign, decide_True by done. keys_eq_from IH.
    + rewrite decide_False by done. keys_eq_from IH.
  - induction updates as [|upd updates IH] using rev_ind; [reflexivity|].
    rewrite compileUpdate_snoc, step_dollar_inc, targets_snoc.
    destruct (String.eqb_spec (update.kind upd) "inc") as [E|E].
    + rewrite own_keys_assign, decide_True by done. keys_eq_from IH.
    + rewrite decide_False by done. keys_eq_from IH.
Qed.

(** X17. On every path other than ["__proto__"] the last write wins, group
    by group: among its own properties the [$set] group holds under the
    path the value of the last [set] node on it, the [$inc] group the value
    of the last [inc] node on it, whatever else the sequence writes. *)
Theorem compileUpdate_last_write_ordinary
    (updates : list update.Update) (p : string) :
  p ≠ "__proto__" →
  lookup_group (update.dollar_set (update.compileUpdate updates)) p
  = last_write "set" p updates
  ∧ lookup_group (update.dollar_inc (update.compileUpdate updates)) p
    = last_write "inc" p updates.
Proof.
  intros Hp. split.
  - induction updates as [|upd updates IH] using rev_ind; [reflexivity|].
    by rewrite compileUpdate_snoc, step_lookup_set, last_write_snoc, IH.
  - induction updates as [|upd updates IH] using rev_ind; [reflexivity|].
    by rewrite compileUpdate_snoc, step_lookup_inc, last_write_snoc, IH.
Qed.

Lemma compileUpdate_last_write_ordinary_witness :
  "a" ≠ "__proto__"
  ∧ lookup_group
      (update.dollar_set
         (update.compileUpdate
            [update.set (column.column "a") (VNum 1);
             update.set (column.column "__proto__") VNull;
             update.inc (column.column "a") (VNum 5);
             update.set (column.column "a") (VNum 2);
             update.set (column.column "b") (VNum 3)])) "a"
    = Some (VNum 2)
  ∧ lookup_group
      (update.dollar_inc
         (update.compileUpdate
            [update.set (column.column "a") (VNum 1);
             update.set (column.column "__proto__") VNull;
             update.inc (column.column "a") (VNum 5);
             update.set (column.column "a") (VNum 2);
             update.set (column.column "b") (VNum 3)])) "a"
    = Some (VNum 5).
Proof.
  split; [discriminate|].
  apply (compileUpdate_last_write_ordinary
           [update.set (column.column "a") (VNum 1);
            update.set (column.column "__proto__") VNull;
            update.inc (column.column "a") (VNum 5);
            update.set (column.column "a") (VNum 2);
            update.set (column.column "b") (VNum 3)] "a").
  discriminate.
Defined.

(** X10. The two groups can be compiled apart: the [$set] group of a
    sequence is the one of its [set] nodes alone, the [$inc] group the one
    of its [inc] nodes alone, and the [set] nodes alone give no [$inc]
    group, the [inc] nodes alone no [$set] group. *)
Theorem compileUpdate_groups_apart (updates : list update.Update) :
  update.dollar_set (update.compileUpdate updates)
  = update.dollar_set
      (update.compileUpdate
         (filter (fun upd => update.kind upd = "set") updates))
  ∧ update.dollar_inc (update.compileUpdate updates)
    = update.dollar_inc
        (update.compileUpdate
           (filter (fun upd => update.kind upd = "inc") updates))
  ∧ update.dollar_inc
      (update.compileUpdate
         (filter (fun upd => update.kind upd = "set") updates)) = None
  ∧ update.dollar_set
      (update.compileUpdate
         (filter (fun upd => update.kind upd = "inc") updates)) = None.
Proof.
  split_and!;
    (induction updates as [|upd updates IH] using rev_ind; [reflexivity|]);
    rewrite filter_app, filter_cons, filter_nil;
    rewrite ?compileUpdate_snoc, ?step_dollar_set, ?step_dollar_inc.
  - destruct (String.eqb_spec (update.kind upd) "set") as [E|E].
    + rewrite decide_True by done.
      by rewrite compileUpdate_snoc, step_dollar_set, E, IH.
    + by rewrite decide_False, app_nil_r.
  - destruct (String.eqb_spec (update.kind upd) "inc") as [E|E].
    + rewrite decide_True by done.
      by rewrite compileUpdate_snoc, step_dollar_inc, E, IH.
    + by rewrite decide_False, app_nil_r.
  - destruct (decide (update.kind upd = "set")) as [E|E].
    + by rewrite compileUpdate_snoc, step_dollar_inc, E, IH.
    + by rewrite app_nil_r.
  - destruct (decide (update.kind upd = "inc")) as [E|E].
    + by rewrite compileUpdate_snoc, step_dollar_set, E, IH.
    + by rewrite app_nil_r.
Qed.

(** ** [select] on any shape *)

(** X11. On shapes of column references without the key ["__proto__"],
    [select] loses nothing: two different shapes have different
    projections. *)
Theorem select_injective_on_columns (shape1 shape2 : gmap string column.Column) :
  shape1 !! "__proto__" = None →
  shape2 !! "__proto__" = None →
  shape1 ≠ shape2 →
  select.select (select.Col <$> shape1) ≠ select.select (select.Col <$> shape2).
Proof.
  intros H1 H2 Hne Heq. apply Hne. clear Hne.
  rewrite !select_fmap, !delete_id in Heq by (by rewrite lookup_fmap, ?H1, ?H2).
  rewrite <- !map_fmap_compose in Heq.
  apply map_eq. intros k. apply (f_equal (lookup k)) in Heq.
  rewrite !lookup_fmap in Heq.
  destruct (shape1 !! k) as [[p1]|], (shape2 !! k) as [[p2]|];
    cbn in Heq; try discriminate Heq; [|done].
  injection Heq as Heq. change (p1 = p2) in Heq. by subst.
Qed.

Lemma select_injective_on_columns_witness :
  ({[ "x" := column.column "a" ]} : gmap string column.Column)
    !! "__proto__" = None
  ∧ ({[ "x" := column.column "b" ]} : gmap string column.Column)
      !! "__proto__" = None
  ∧ ({[ "x" := column.column "a" ]} : gmap string column.Column)
    ≠ {[ "x" := column.column "b" ]}
  ∧ select.select (select.Col <$> {[ "x" := column.column "a" ]})
    ≠ select.select (select.Col <$> {[ "x" := column.column "b" ]}).
Proof.
  assert (({[ "x" := column.column "a" ]} : gmap string column.Column)
          ≠ {[ "x" := column.column "b" ]}) as Hne.
  { intros Heq. apply (f_equal (lookup "x")) in Heq.
    rewrite !lookup_singleton_eq in Heq. discriminate Heq. }
  split; [reflexivity|]. split; [reflexivity|]. split; [exact Hne|].
  apply (select_injective_on_columns
           {[ "x" := column.column "a" ]} {[ "x" := column.column "b" ]});
    [reflexivity|reflexivity|exact Hne].
Defined.

(** X19. For every shape of column references, [select] returns the
    document that maps each key the loop enumerates, other than
    ["__proto__"], to the string ["$" + col.path], and has no other key. *)
Theorem select_projects_columns (shape : gmap string column.Column) :
  select.select (select.Col <$> shape)
  = (fun c => VStr ("$" +:+ column.path c)) <$> delete "__proto__" shape
  ∧ dom (select.select (select.Col <$> shape)) = dom shape ∖ {[ "__proto__" ]}.
Proof.
  assert (select.select (select.Col <$> shape)
          = (fun c => VStr ("$" +:+ column.path c))
              <$> delete "__proto__" shape) as Hsel.
  { rewrite select_fmap, <- fmap_delete, <- map_fmap_compose. reflexivity. }
  split; [exact Hsel|].
  by rewrite Hsel, dom_fmap_L, dom_delete_L.
Qed.

(** X12. The placeholder hides what was there: under any key, a column
    whose path is the string ["undefined"], a column reference without
    path and a missing column reference give the same projection. *)
Theorem select_undefined_collision (shape : gmap string select.slot) (k : string) :
  select.select (<[ k := select.Col (column.column "undefined") ]> shape)
  = select.select (<[ k := select.Nullish ]> shape)
  ∧ select.select (<[ k := select.NoPath ]> shape)
    = select.select (<[ k := select.Nullish ]> shape).
Proof.
  rewrite !select_fmap, !fmap_delete, !fmap_insert. done.
Qed.

(** X13. For every shape whose slots hold a column, an object without path
    or nothing, [select] keeps the keys the loop enumerates except
    ["__proto__"], neither more nor fewer, and every value it writes is a
    string that starts with ["$"]. *)
Theorem select_keys_and_values (shape : gmap string select.slot) :
  dom (select.select shape) = dom shape ∖ {[ "__proto__" ]}
  ∧ map_Forall (fun _ v => ∃ s, v = VStr ("$" +:+ s)) (select.select shape).
Proof.
  rewrite select_fmap. split; [by rewrite dom_fmap_L, dom_delete_L|].
  intros k v. rewrite lookup_fmap.
  destruct (delete "__proto__" shape !! k) as [s|]; [|discriminate].
  intros [= <-]. by eexists.
Qed.

(** X14. [select] works key by key: the projection of a union of shapes is
    the union of the projections, the left shape first; a key other than
    ["__proto__"] added to the shape is a key added to the projection,
    while adding ["__proto__"] adds nothing; a key removed from the shape
    is removed from the projection. *)
Theorem select_key_by_key (shape1 shape2 : gmap string select.slot)
    (k : string) (s : select.slot) :
  select.select (shape1 ∪ shape2) = select.select shape1 ∪ select.select shape2
  ∧ select.select (<[ k := s ]> shape1)
    = (if decide (k = "__proto__") then select.select shape1
       else <[ k := select.projected s ]> (select.select shape1))
  ∧ select.select (delete k shape1) = delete k (select.select shape1)
  ∧ select.select ∅ = ∅.
Proof.
  rewrite !select_fmap, !fmap_delete. split_and!.
  - by rewrite map_fmap_union, delete_union.
  - destruct (decide (k = "__proto__")) as [->|Hk].
    + by rewrite fmap_insert, delete_insert_eq.
    + by rewrite fmap_insert, delete_insert_ne.
  - apply delete_delete.
  - by rewrite fmap_empty, delete_empty.
Qed.

(** X18. The order in which [for ... in] enumerates the keys of a shape
    does not matter: two enumerations of one shape leave the same
    projection. *)
Theorem select_enumeration_order (shape : gmap string select.slot)
    (entries entries' : list (string * select.slot)) :
  entries ≡ₚ map_to_list shape →
  entries' ≡ₚ map_to_list shape →
  select.select_loop fresh entries = select.select_loop fresh entries'.
Proof.
  intros Hentries Hentries'. apply object_eq.
  - by rewrite !(select_loop_enumeration shape).
  - by rewrite !select_loop_prototype.
Qed.

Lemma select_enumeration_order_witness :
  [("x", select.Col (column.column "a.b")); ("y", select.Nullish)]
    ≡ₚ map_to_list
         ({[ "x" := select.Col (column.column "a.b"); "y" := select.Nullish ]}
            : gmap string select.slot)
  ∧ [("y", select.Nullish); ("x", select.Col (column.column "a.b"))]
      ≡ₚ map_to_list
           ({[ "x" := select.Col (column.column "a.b"); "y" := select.Nullish ]}
              : gmap string select.slot)
  ∧ select.select_loop fresh
      [("x", select.Col (column.column "a.b")); ("y", select.Nullish)]
    = select.select_loop fresh
        [("y", select.Nullish); ("x", select.Col (column.column "a.b"))].
Proof.
  assert ([("x", select.Col (column.column "a.b")); ("y", select.Nullish)]
          ≡ₚ map_to_list
               ({[ "x" := select.Col (column.column "a.b");
                   "y" := select.Nullish ]} : gmap string select.slot)) as H1.
  { vm_compute. apply perm_swap. }
  assert ([("y", select.Nullish); ("x", select.Col (column.column "a.b"))]
          ≡ₚ map_to_list
               ({[ "x" := select.Col (column.column "a.b");
                   "y" := select.Nullish ]} : gmap string select.slot)) as H2.
  { vm_compute. reflexivity. }
  split; [exact H1|]. split; [exact H2|].
  exact (select_enumeration_order _ _ _ H1 H2).
Defined.

(** ** Paths of the accessor *)

(** X15. A sequence of accesses with non-empty names joins the names with
    dots: below the root the path is the names joined, below an accessor
    that carries a path it is that path and the names joined. *)
Theorem access_joins_names (a : schema.accessor) (keys : list string) :
  Forall (fun key => truthy key = true) keys →
  schema.path (schema.access a keys)
  = String.concat "."
      (if truthy (schema.path a) then schema.path a :: keys else keys).
Proof.
  intros Hkeys. destruct (truthy (schema.path a)) eqn:Ha.
  - by apply access_truthy.
  - destruct a as [[|c p]]; [|discriminate Ha].
    by apply access_defineSchema.
Qed.

Lemma access_joins_names_witness :
  Forall (fun key => truthy key = true) ["address"; "city"]
  ∧ schema.path (schema.access schema.defineSchema ["address"; "city"])
    = "address.city"
  ∧ schema.path (schema.access (schema.make "user") ["address"; "city"])
    = "user.address.city".
Proof.
  split; [by repeat constructor|]. split.
  - apply (access_joins_names schema.defineSchema ["address"; "city"]).
    by repeat constructor.
  - apply (access_joins_names (schema.make "user") ["address"; "city"]).
    by repeat constructor.
Defined.

(** X16. A name is put into the path as it is, dots included: accessing a
    dotted name gives the same accessor as accessing its parts one after
    the other, so the path does not tell the two apart. *)
Theorem get_dotted_name (a : schema.accessor) (key1 key2 : string) :
  truthy key1 = true →
  schema.get (schema.get a key1) key2
  = schema.get a (key1 +:+ "." +:+ key2).
Proof.
  intros Hkey1. unfold schema.get. cbn [schema.path].
  destruct (truthy (schema.path a)) eqn:Ha.
  - rewrite (truthy_append _ _ Ha). by rewrite append_assoc.
  - by rewrite Hkey1.
Qed.

Lemma get_dotted_name_witness :
  truthy "address" = true
  ∧ schema.get (schema.get schema.defineSchema "address") "city"
    = schema.get schema.defineSchema ("address" +:+ "." +:+ "city").
Proof.
  split; [reflexivity|].
  apply (get_dotted_name schema.defineSchema "address" "city"). reflexivity.
Defined.
